(** * Off-line particle smoothing experiment: the driver script

    Shallow embedding of [book/smoothing/offline_smoothing.py], the script
    that compares the off-line smoothing algorithms on a discrete Cox model

      X_t | X_{t-1} = x  ~  N(mu + phi (x - mu), sigma^2)
      Y_t | X_t = x      ~  Poisson(exp x)

    Python floats are read as real numbers: [np.log] is [ln], [np.sqrt] is
    [sqrt], [np.pi] is [PI] and [a ** n] with a literal exponent is [a ^ n].
    Rounding is not part of the model.  The integer time index [t] is a [Z].
    The keyword arguments of the [utils.multiplexer] call are kept as an
    association list of dynamically typed values, in the order of the call. *)

From Equations Require Import Equations.
From Stdlib Require Import Reals Lra Psatz ZArith String Bool List Lia.
From Stdlib Require Import Permutation.
Import ListNotations.

Open Scope R_scope.

(** * Part I: the embedding *)

(** ** The normal distribution *)

(** [scipy.stats.norm.logpdf(x, loc, scale)]: the standard normal
    log-density [-y**2 / 2.0 - log(sqrt(2*pi))] at [y = (x - loc) / scale],
    minus [log(scale)]. *)
Definition norm_logpdf (x loc scale : R) : R :=
  - ((x - loc) / scale) ^ 2 / 2.0 - ln (sqrt (2 * PI)) - ln scale.

(** The density of N(m, v), mean [m] and variance [v], in its textbook
    form. *)
Definition gauss_pdf (m v x : R) : R :=
  / sqrt (2 * PI * v) * exp (- (x - m) ^ 2 / (2 * v)).

(** ** The model class *)

(** An instance of [ssms.DiscreteCox]: its three parameters, set by the
    keyword arguments of the constructor. *)
Record DiscreteCox : Type := mkDiscreteCox {
  mu : R;
  phi : R;
  sigma : R
}.

(** Modelled from the spec: the transition law of [ssms.DiscreteCox], whose
    class body is not part of this script.  The script's header and the
    spec give it as X_t | X_{t-1} = x ~ N(mu + phi (x - mu), sigma^2);
    [log_pt self x x'] is the logarithm of that density at [x']. *)
Definition log_pt (self : DiscreteCox) (x x' : R) : R :=
  ln (gauss_pdf (mu self + phi self * (x - mu self)) (sigma self ^ 2) x').

(** Modelled from the spec: the initial law of [ssms.DiscreteCox],
    X_0 ~ N(mu, sigma^2 / (1 - phi^2)), as the class docstring and the
    spec state it; [log_p0 self x] is the logarithm of its density. *)
Definition log_p0 (self : DiscreteCox) (x : R) : R :=
  ln (gauss_pdf (mu self) (sigma self ^ 2 / (1 - phi self ^ 2)) x).

(** [DiscreteCox_with_add_f.upper_bound_log_pt], the one method the
    subclass adds. *)
Definition upper_bound_log_pt (self : DiscreteCox) (t : Z) : R :=
  -0.5 * ln (2 * PI * sigma self ^ 2).

(** ** Set up of the model *)

Definition T : Z := 100.
Definition mu0 : R := 0.
Definition phi0 : R := 0.9.
Definition sigma0 : R := 0.5.

Definition my_ssm : DiscreteCox :=
  {| mu := mu0; phi := phi0; sigma := sigma0 |}.

(** ** The additive functional *)

Definition psi0 (x : R) : R :=
  -0.5 / sigma0 ^ 2 + (0.5 * (1.0 - phi0 ^ 2) / sigma0 ^ 4) * (x - mu0) ^ 2.

(** Nesting depth of the calls below [psit t ...]: the measure that makes
    the recursion of [psit] well founded. *)
Definition psit_rank (t : Z) : nat :=
  if (t =? 0)%Z then 1%nat else 0%nat.

(** [psit(t, x, xf)].  The recursive call is at the literal [1], not at a
    subterm of [t]. *)
Equations psit (t : Z) (x xf : R) : R by wf (psit_rank t) lt :=
  psit t x xf with Z.eq_dec t 0 := {
    | left _ => psi0 x + psit 1 x xf
    | right _ =>
        -0.5 / sigma0 ^ 2
        + (0.5 / sigma0 ^ 4) * ((xf - mu0) - phi0 * (x - mu0)) ^ 2 }.

(** The same body run with a bound on the number of nested activations,
    recording the time index of every recursive call it makes (outermost
    first).  [None] means the bound was reached. *)
Fixpoint psit_traced (fuel : nat) (t : Z) (x xf : R) : option (R * list Z) :=
  match fuel with
  | O => None
  | S fuel' =>
      if (t =? 0)%Z then
        match psit_traced fuel' 1 x xf with
        | Some (r, calls) => Some (psi0 x + r, 1%Z :: calls)
        | None => None
        end
      else
        Some (-0.5 / sigma0 ^ 2
              + (0.5 / sigma0 ^ 4) * ((xf - mu0) - phi0 * (x - mu0)) ^ 2,
              [])
  end.

(** The piecewise definition of the functional as the spec words it: an
    explicit case for [t = 0] and one for every other [t], no recursion. *)
Definition psit_explicit (t : Z) (x xf : R) : R :=
  if (t =? 0)%Z then
    psi0 x
    + (-0.5 / sigma0 ^ 2
       + (0.5 / sigma0 ^ 4) * ((xf - mu0) - phi0 * (x - mu0)) ^ 2)
  else
    -0.5 / sigma0 ^ 2
    + (0.5 / sigma0 ^ 4) * ((xf - mu0) - phi0 * (x - mu0)) ^ 2.

(** ** The prior of the information filter *)

Definition log_gamma (x : R) : R :=
  norm_logpdf x mu0 (sigma0 / sqrt (1.0 - phi0 ^ 2)).

(** ** Feynman-Kac models and the reversed data *)

(** Python's slice [l[::-1]] of a list: a new list holding the elements at
    the indices [len(l)-1, len(l)-2, ..., 0], in that order.
    [slice_down l n] walks the indices below [n] downwards. *)
Fixpoint slice_down {A : Type} (l : list A) (n : nat) : list A :=
  match n with
  | O => []
  | S k =>
      match nth_error l k with
      | Some a => a :: slice_down l k
      | None => slice_down l k
      end
  end.

Definition slice_rev {A : Type} (l : list A) : list A :=
  slice_down l (length l).

(** [ssms.Bootstrap(ssm=..., data=...)]: the bootstrap Feynman-Kac model
    keeps the state-space model and the observations it was built from. *)
Record Bootstrap (Y : Type) : Type := mkBootstrap {
  ssm : DiscreteCox;
  data : list Y
}.
Arguments mkBootstrap {Y} _ _.
Arguments ssm {Y} _.
Arguments data {Y} _.

Section FKModels.

(** The observations drawn by [my_ssm.simulate(T)]; they are random, so
    they stay a parameter. *)
Context {Y : Type}.
Variable simulated : list Y.

Definition fkmod : Bootstrap Y :=
  {| ssm := my_ssm; data := simulated |}.

Definition fk_info : Bootstrap Y :=
  {| ssm := my_ssm; data := slice_rev simulated |}.

End FKModels.

(** ** The experiment sweep *)

#[local] Set Warnings "-register-all".

(** Values that occur as keyword arguments of a [utils.multiplexer]
    call: integers, booleans, strings, lists, and references to the
    functions and objects the script has defined, by name. *)
Inductive pyval : Type :=
| PyInt (n : Z)
| PyBool (b : bool)
| PyStr (s : string)
| PyList (l : list pyval)
| PyRef (name : string).

(** Keyword arguments, in call order. *)
Definition kwargs : Type := list (string * pyval).

Fixpoint lookup (k : string) (kw : kwargs) : option pyval :=
  match kw with
  | [] => None
  | (k', v) :: rest => if String.eqb k k' then Some v else lookup k rest
  end.


Open Scope string_scope.

Definition Ns : list Z := [100; 400; 1600; 6400]%Z.

Definition methods : list string :=
  ["FFBS_ON"; "FFBS_ON2"; "two-filter_ON";
   "two-filter_ON_prop"; "two-filter_ON2"].

(** The keyword arguments of the call that produces [results]. *)
Definition multiplexer_call : kwargs :=
  [("f", PyRef "smoothing_worker");
   ("method", PyList (map PyStr methods));
   ("N", PyList (map PyInt Ns));
   ("fk", PyRef "fkmod");
   ("fk_info", PyRef "fk_info");
   ("add_func", PyRef "psit");
   ("log_gamma", PyRef "log_gamma");
   ("nprocs", PyInt 0);
   ("nruns", PyInt 10)].

(** One evaluation of the worker asked for by the sweep: the index of the
    run and the keyword arguments taken over from the call. *)
Record task : Type := mkTask {
  run : nat;
  args : kwargs
}.

(** The parameters [utils.multiplexer] keeps for itself; every other
    keyword argument is meant for the worker.  Of these the call of the
    script uses [f], [nprocs] and [nruns]. *)
Definition own_params : list string :=
  ["f"; "nruns"; "nprocs"; "seeding"; "protected_args"].

(** The number of runs asked for, 1 when the call does not say. *)
Definition nruns_of (call : kwargs) : nat :=
  match lookup "nruns" call with
  | Some (PyInt n) => Z.to_nat n
  | _ => 1%nat
  end.

(** Every way of picking one element from each list-valued argument; an
    argument that is not a list is taken as it is. *)
Fixpoint cartesian (kw : kwargs) : list kwargs :=
  match kw with
  | [] => [[]]
  | (k, PyList vs) :: rest =>
      flat_map (fun v => map (cons (k, v)) (cartesian rest)) vs
  | (k, v) :: rest => map (cons (k, v)) (cartesian rest)
  end.

(** Modelled from the spec: the tasks [utils.multiplexer] draws up from
    its call; its module is not part of this script.  The spec describes
    the sweep as one evaluation of the worker per (method, N, run): the
    list-valued keyword arguments are swept over, the other arguments are
    passed to every evaluation, and each combination is repeated [nruns]
    times.  Dict-valued arguments and [protected_args], which the call of
    the script does not use, are not modelled. *)
Definition sweep_inputs (call : kwargs) : list task :=
  let fargs :=
    filter (fun kv => negb (existsb (String.eqb (fst kv)) own_params)) call in
  flat_map (fun r => map (mkTask r) (cartesian fargs))
    (seq 0 (nruns_of call)).

(** The tasks behind [results]: run, method and particle count of every
    evaluation, with the arguments it takes over from the call. *)
Definition dispatched : list task := sweep_inputs multiplexer_call.






Section Worker.

(** Modelled from the spec: the worker, which is not part of this script,
    is a function of its keyword arguments and of the random generator it
    draws from, and of nothing else.  [seed_rng s] is the generator set
    from the seed [s]. *)
Variables rng result : Type.
Variable seed_rng : Z -> rng.
Variable smoothing_worker : kwargs -> rng -> result.


End Worker.

Definition task_method (tk : task) : option string :=
  match lookup "method" (args tk) with
  | Some (PyStr s) => Some s
  | _ => None
  end.

Definition task_N (tk : task) : option Z :=
  match lookup "N" (args tk) with
  | Some (PyInt n) => Some n
  | _ => None
  end.

(** The run indices of the evaluations of method [m] with [n] particles. *)
Definition runs_of (m : string) (n : Z) : list nat :=
  map run
    (filter
       (fun tk =>
          match task_method tk, task_N tk with
          | Some m', Some n' => String.eqb m m' && (n =? n')%Z
          | _, _ => false
          end)
       dispatched).

(** What one evaluation of method [m] with [n] particles takes over from
    the call. *)
Definition worker_kwargs (m : string) (n : Z) : kwargs :=
  [("method", PyStr m);
   ("N", PyInt n);
   ("fk", PyRef "fkmod");
   ("fk_info", PyRef "fk_info");
   ("add_func", PyRef "psit");
   ("log_gamma", PyRef "log_gamma")].

(** The closed enumeration of smoothing methods of the spec, with the name
    each one goes by. *)
Inductive method : Type :=
| FFBS_ON
| FFBS_ON2
| two_filter_ON
| two_filter_ON_prop
| two_filter_ON2.

Definition method_name (m : method) : string :=
  match m with
  | FFBS_ON => "FFBS_ON"
  | FFBS_ON2 => "FFBS_ON2"
  | two_filter_ON => "two-filter_ON"
  | two_filter_ON_prop => "two-filter_ON_prop"
  | two_filter_ON2 => "two-filter_ON2"
  end.

Close Scope string_scope.

(** ** The additive functional along a path *)

(** Modelled from the spec: the sum the worker accumulates for one smoothed
    trajectory, [sum_{t=0}^{T-2} psi_t(x_t, x_{t+1})] over the states
    [x_0, ..., x_{T-1}]; the script's docstring states the same sum and the
    worker that computes it is not part of this script.
    [add_func_from t xs] adds the terms from the time index [t] on. *)
Fixpoint add_func_from (t : Z) (xs : list R) : R :=
  match xs with
  | [] => 0
  | x :: rest =>
      match rest with
      | [] => 0
      | xf :: _ => psit t x xf + add_func_from (t + 1) rest
      end
  end.

Definition add_func_sum (xs : list R) : R := add_func_from 0 xs.

(** The model with variance [v] of the state noise and the true [mu0] and
    [phi0]: the family in which the script takes its score. *)
Definition ssm_of_variance (v : R) : DiscreteCox :=
  {| mu := mu0; phi := phi0; sigma := sqrt v |}.

(** Modelled from the spec: the log-density of the states along a path,
    the initial law at [x_0] and one transition for each consecutive pair. *)
Fixpoint log_transitions (self : DiscreteCox) (xs : list R) : R :=
  match xs with
  | [] => 0
  | x :: rest =>
      match rest with
      | [] => 0
      | xf :: _ => log_pt self x xf + log_transitions self rest
      end
  end.

Definition log_path (self : DiscreteCox) (xs : list R) : R :=
  match xs with
  | [] => 0
  | x0 :: _ => log_p0 self x0 + log_transitions self xs
  end.

(** ** The plots *)

(** A Python dict from strings to strings, in insertion order. *)
Definition pydict : Type := list (string * string).

(** [d[k]]; [None] stands for the [KeyError]. *)
Fixpoint dict_get (k : string) (d : pydict) : option string :=
  match d with
  | [] => None
  | (k', v) :: rest => if String.eqb k k' then Some v else dict_get k rest
  end.

(** [d[k] = v]: the entry is replaced where it stands, or added last. *)
Fixpoint dict_set (k v : string) (d : pydict) : pydict :=
  match d with
  | [] => [(k, v)]
  | (k', v') :: rest =>
      if String.eqb k k' then (k, v) :: rest
      else (k', v') :: dict_set k v rest
  end.

(** Running a list comprehension whose body may raise: the first failure
    aborts the whole list. *)
Fixpoint traverse {A B : Type} (f : A -> option B) (l : list A)
  : option (list B) :=
  match l with
  | [] => Some []
  | a :: rest =>
      match f a with
      | None => None
      | Some b =>
          match traverse f rest with
          | None => None
          | Some bs => Some (b :: bs)
          end
      end
  end.

Open Scope string_scope.

Definition ON : string := "$\mathcal{O}(N)$".
Definition ON2 : string := "$\mathcal{O}(N^2)$".

(** [pretty_names] after the five assignments that fill it, as the
    box-plot reads it. *)
Definition pretty_names : pydict :=
  fold_left (fun d kv => dict_set (fst kv) (snd kv) d)
    [("FFBS_ON", ON ++ " FFBS");
     ("FFBS_ON2", ON2 ++ " FFBS");
     ("two-filter_ON", ON ++ " two-filter, basic proposal");
     ("two-filter_ON2", ON2 ++ " two-filter");
     ("two-filter_ON_prop", ON ++ " two-filter, better proposal")]
    [].

(** The [hue] argument of the box-plot:
    [[pretty_names[r['method']] for r in results]]. *)
Definition boxplot_hue : option (list string) :=
  traverse
    (fun tk =>
       match task_method tk with
       | Some m => dict_get m pretty_names
       | None => None
       end)
    dispatched.

(** [pretty_names] after
    [pretty_names['FFBS_ON2'] += " and " + pretty_names['two-filter_ON2']],
    as the CPU plot reads it. *)
Definition pretty_names_cpu : option pydict :=
  match dict_get "FFBS_ON2" pretty_names with
  | None => None
  | Some old =>
      match dict_get "two-filter_ON2" pretty_names with
      | None => None
      | Some other =>
          Some (dict_set "FFBS_ON2" (old ++ (" and " ++ other)) pretty_names)
      end
  end.

(** The methods the CPU plot loops over. *)
Definition cpu_methods : list string :=
  ["FFBS_ON2"; "FFBS_ON"; "two-filter_ON_prop"; "two-filter_ON"].

Definition line_style (m : string) : string :=
  if String.eqb m "FFBS_ON2" then "-" else "--".

(** One call of [plt.plot]: its label, its line style and, for each [N] of
    [Ns], the runs whose CPU times are averaged into the point at [N]. *)
Record line : Type := mkLine {
  label : string;
  ls : string;
  points : list (list nat)
}.

Definition cpu_lines : option (list line) :=
  match pretty_names_cpu with
  | None => None
  | Some d =>
      traverse
        (fun m =>
           match dict_get m d with
           | None => None
           | Some lab => Some (mkLine lab (line_style m) (map (runs_of m) Ns))
           end)
        cpu_methods
  end.

Close Scope string_scope.

(** * Part II: properties *)

(** ** Real-number facts used by the density computations *)

Section RealFacts.

Lemma two_PI_pos : 0 < 2 * PI.
Proof. pose proof PI_RGT_0. lra. Qed.

Lemma ln_sqrt_half (a : R) : 0 < a -> ln (sqrt a) = ln a / 2.
Proof.
  intros Ha.
  assert (Hs : 0 < sqrt a) by now apply sqrt_lt_R0.
  assert (Hsq : ln a = ln (sqrt a) + ln (sqrt a)).
  { rewrite <- ln_mult by assumption. now rewrite sqrt_sqrt by lra. }
  lra.
Qed.

Lemma sq_div_sqrt (s d : R) : 0 < d -> (s / sqrt d) ^ 2 = s ^ 2 / d.
Proof.
  intros Hd.
  unfold Rdiv.
  rewrite Rpow_mult_distr, pow_inv, pow2_sqrt by lra.
  reflexivity.
Qed.

End RealFacts.

(** ** The normal log-density *)

Lemma gauss_pdf_pos (m v x : R) : 0 < v -> 0 < gauss_pdf m v x.
Proof.
  intros Hv. unfold gauss_pdf.
  apply Rmult_lt_0_compat; [ | apply exp_pos ].
  apply Rinv_0_lt_compat, sqrt_lt_R0.
  pose proof two_PI_pos. nra.
Qed.

Lemma ln_gauss_pdf (m v x : R) :
  0 < v ->
  ln (gauss_pdf m v x) = - 0.5 * ln (2 * PI * v) - (x - m) ^ 2 / (2 * v).
Proof.
  intros Hv. unfold gauss_pdf.
  assert (Hc : 0 < 2 * PI * v) by (pose proof two_PI_pos; nra).
  assert (Hs : 0 < sqrt (2 * PI * v)) by now apply sqrt_lt_R0.
  rewrite ln_mult; [ | now apply Rinv_0_lt_compat | apply exp_pos ].
  rewrite ln_Rinv, ln_exp, ln_sqrt_half by assumption.
  lra.
Qed.

(** [norm.logpdf] is the logarithm of the density of N(loc, scale^2). *)
Lemma norm_logpdf_gauss (x loc scale : R) :
  0 < scale ->
  norm_logpdf x loc scale = ln (gauss_pdf loc (scale ^ 2) x).
Proof.
  intros Hs.
  assert (Hv : 0 < scale ^ 2) by nra.
  rewrite ln_gauss_pdf by assumption.
  unfold norm_logpdf.
  rewrite ln_sqrt_half by apply two_PI_pos.
  rewrite (ln_mult (2 * PI)) by (try apply two_PI_pos; assumption).
  replace (scale ^ 2) with (scale * scale) by ring.
  rewrite (ln_mult scale) by assumption.
  replace 2.0 with 2 by lra.
  replace (- ((x - loc) / scale) ^ 2 / 2)
    with (- ((x - loc) ^ 2 / (2 * (scale * scale)))) by (field; lra).
  lra.
Qed.

(** ** The bound on the transition density *)

(** The quadratic term of a normal log-density is never positive. *)
Lemma quad_term_nonneg (d v : R) : 0 < v -> 0 <= d ^ 2 / (2 * v).
Proof.
  intros Hv. apply Rmult_le_pos; [ nra | ].
  apply Rlt_le, Rinv_0_lt_compat. lra.
Qed.

(** The bound is reached: at the mean of the transition the log-density
    equals it, so no smaller constant would do. *)
Lemma upper_bound_log_pt_attained (self : DiscreteCox) (t : Z) (x : R) :
  0 < sigma self ->
  log_pt self x (mu self + phi self * (x - mu self))
  = upper_bound_log_pt self t.
Proof.
  intros Hs. unfold log_pt, upper_bound_log_pt.
  rewrite ln_gauss_pdf by nra.
  set (m := mu self + phi self * (x - mu self)).
  replace ((m - m) ^ 2 / (2 * sigma self ^ 2)) with 0; [ lra | ].
  unfold Rdiv. ring.
Qed.

(** C1: [upper_bound_log_pt] returns the constant
    [-0.5 * log(2 * pi * sigma^2)] whatever its argument [t], and for a
    model with [sigma > 0] this constant bounds the log transition density
    [log N(x'; mu + phi (x - mu), sigma^2)] from above at all states
    [x], [x']. *)
Theorem upper_bound_log_pt_bounds (self : DiscreteCox) :
  0 < sigma self ->
  forall (t : Z) (x x' : R),
    upper_bound_log_pt self t = -0.5 * ln (2 * PI * sigma self ^ 2)
    /\ (forall t' : Z, upper_bound_log_pt self t' = upper_bound_log_pt self t)
    /\ log_pt self x x' <= upper_bound_log_pt self t.
Proof.
  intros Hs t x x'.
  split; [ reflexivity | split; [ reflexivity | ] ].
  unfold log_pt, upper_bound_log_pt.
  assert (Hv : 0 < sigma self ^ 2) by nra.
  rewrite ln_gauss_pdf by assumption.
  pose proof
    (quad_term_nonneg (x' - (mu self + phi self * (x - mu self))) _ Hv).
  lra.
Qed.

Lemma upper_bound_log_pt_bounds_witness :
  0 < sigma my_ssm
  /\ upper_bound_log_pt my_ssm 3 = -0.5 * ln (2 * PI * sigma my_ssm ^ 2)
  /\ (forall t' : Z, upper_bound_log_pt my_ssm t' = upper_bound_log_pt my_ssm 3)
  /\ log_pt my_ssm 1 2 <= upper_bound_log_pt my_ssm 3.
Proof.
  assert (Hs : 0 < sigma my_ssm) by (cbn; unfold sigma0; lra).
  split; [ exact Hs | ].
  exact (upper_bound_log_pt_bounds my_ssm Hs 3%Z 1 2).
Defined.

(** ** The prior of the information filter *)

Lemma one_minus_phi0_sq_pos : 0 < 1 - phi0 ^ 2.
Proof. unfold phi0. lra. Qed.

Lemma gamma_scale_pos : 0 < sigma0 / sqrt (1 - phi0 ^ 2).
Proof.
  apply Rdiv_lt_0_compat; [ unfold sigma0; lra | ].
  apply sqrt_lt_R0, one_minus_phi0_sq_pos.
Qed.

(** The variance of the prior is the fixed point of the variance recursion
    v |-> phi0^2 v + sigma0^2 of the autoregression: the prior is the
    stationary law of the state process. *)
Lemma gamma_variance_stationary :
  phi0 ^ 2 * (sigma0 ^ 2 / (1 - phi0 ^ 2)) + sigma0 ^ 2
  = sigma0 ^ 2 / (1 - phi0 ^ 2).
Proof. unfold phi0, sigma0. lra. Qed.

(** C3: [log_gamma x] is the log-density at [x] of the normal law with
    mean [mu0] and standard deviation [sigma0 / sqrt(1 - phi0^2)]; the
    variance of that law is [sigma0^2 / (1 - phi0^2)], so it is the initial
    law N(mu, sigma^2 / (1 - phi^2)) of the model at the true parameters. *)
Theorem log_gamma_initial_law (x : R) :
  log_gamma x = ln (gauss_pdf mu0 ((sigma0 / sqrt (1 - phi0 ^ 2)) ^ 2) x)
  /\ (sigma0 / sqrt (1 - phi0 ^ 2)) ^ 2 = sigma0 ^ 2 / (1 - phi0 ^ 2)
  /\ log_gamma x = log_p0 my_ssm x.
Proof.
  assert (Hg : log_gamma x
               = ln (gauss_pdf mu0 ((sigma0 / sqrt (1 - phi0 ^ 2)) ^ 2) x)).
  { unfold log_gamma.
    replace (1.0 - phi0 ^ 2) with (1 - phi0 ^ 2) by lra.
    apply norm_logpdf_gauss, gamma_scale_pos. }
  assert (Hv : (sigma0 / sqrt (1 - phi0 ^ 2)) ^ 2 = sigma0 ^ 2 / (1 - phi0 ^ 2))
    by apply sq_div_sqrt, one_minus_phi0_sq_pos.
  split; [ exact Hg | split; [ exact Hv | ] ].
  rewrite Hg, Hv. reflexivity.
Qed.

(** ** The additive functional *)

Lemma psit_at_0 (x xf : R) : psit 0 x xf = psi0 x + psit 1 x xf.
Proof. now simp psit. Qed.

Lemma psit_off_0 (t : Z) (x xf : R) :
  t <> 0%Z ->
  psit t x xf
  = -0.5 / sigma0 ^ 2
    + (0.5 / sigma0 ^ 4) * ((xf - mu0) - phi0 * (x - mu0)) ^ 2.
Proof.
  intros Ht. rewrite psit_equation_1.
  destruct (Z.eq_dec t 0) as [E | N]; [ contradiction | reflexivity ].
Qed.

Lemma one_neq_0 : 1%Z <> 0%Z.
Proof. discriminate. Qed.

Create HintDb psit_db.
#[local] Hint Resolve one_neq_0 : psit_db.

(** C2: the recursive [psit] agrees everywhere with the explicit piecewise
    definition: at [t = 0] it is [psi0 x] plus the step term, at every
    other [t] it is the step term alone. *)
Theorem psit_explicit_equiv :
  (forall (t : Z) (x xf : R), psit t x xf = psit_explicit t x xf)
  /\ (forall x xf : R,
        psit 0 x xf
        = psi0 x
          + (-0.5 / sigma0 ^ 2
             + (0.5 / sigma0 ^ 4) * ((xf - mu0) - phi0 * (x - mu0)) ^ 2))
  /\ (forall (t : Z) (x xf : R),
        t <> 0%Z ->
        psit t x xf
        = -0.5 / sigma0 ^ 2
          + (0.5 / sigma0 ^ 4) * ((xf - mu0) - phi0 * (x - mu0)) ^ 2).
Proof.
  assert (H0 : forall x xf : R,
             psit 0 x xf
             = psi0 x
               + (-0.5 / sigma0 ^ 2
                  + (0.5 / sigma0 ^ 4)
                    * ((xf - mu0) - phi0 * (x - mu0)) ^ 2)).
  { intros x xf. rewrite psit_at_0, psit_off_0 by auto with psit_db.
    reflexivity. }
  split; [ | split; [ exact H0 | exact psit_off_0 ] ].
  intros t x xf. unfold psit_explicit.
  destruct (Z.eqb_spec t 0) as [E | Hne].
  - subst t. apply H0.
  - now apply psit_off_0.
Qed.

Lemma psit_explicit_equiv_witness :
  (7 <> 0)%Z
  /\ psit 7 1 2
     = -0.5 / sigma0 ^ 2 + (0.5 / sigma0 ^ 4) * ((2 - mu0) - phi0 * (1 - mu0)) ^ 2.
Proof.
  assert (H : (7 <> 0)%Z) by discriminate.
  split; [ exact H | ].
  exact (proj2 (proj2 psit_explicit_equiv) 7%Z 1 2 H).
Defined.

(** C9: away from [t = 0] the functional does not depend on the time
    index; [t = 0] is the one index that differs. *)
Theorem psit_time_invariant :
  (forall (t1 t2 : Z) (x xf : R),
      t1 <> 0%Z -> t2 <> 0%Z -> psit t1 x xf = psit t2 x xf)
  /\ (forall x xf : R, psit 0 x xf - psit 1 x xf = psi0 x)
  /\ psit 0 0 0 <> psit 1 0 0.
Proof.
  split; [ | split ].
  - intros t1 t2 x xf H1 H2. now rewrite !psit_off_0 by assumption.
  - intros x xf. rewrite psit_at_0. lra.
  - rewrite psit_at_0. unfold psi0, sigma0, phi0, mu0. lra.
Qed.

Lemma psit_time_invariant_witness :
  (5 <> 0)%Z /\ (99 <> 0)%Z /\ psit 5 1 2 = psit 99 1 2.
Proof.
  assert (H1 : (5 <> 0)%Z) by discriminate.
  assert (H2 : (99 <> 0)%Z) by discriminate.
  split; [ exact H1 | split; [ exact H2 | ] ].
  exact (proj1 psit_time_invariant 5%Z 99%Z 1 2 H1 H2).
Defined.

(** Adding a non-negative multiple of a square does not go below the
    constant it is added to. *)
Lemma add_sq_ge (a c d : R) : 0 <= c -> a + c * d ^ 2 >= a.
Proof. intros Hc. pose proof (pow2_ge_0 d). nra. Qed.

(** C10: every step term is at least [-0.5 / sigma0^2], so is [psi0], and
    the term at [t = 0], their sum, is at least [-1 / sigma0^2]. *)
Theorem psit_lower_bounds :
  (forall (t : Z) (x xf : R), t <> 0%Z -> psit t x xf >= -0.5 / sigma0 ^ 2)
  /\ (forall x : R, psi0 x >= -0.5 / sigma0 ^ 2)
  /\ (forall x xf : R, psit 0 x xf >= -1 / sigma0 ^ 2).
Proof.
  assert (Hstep : forall (t : Z) (x xf : R),
             t <> 0%Z -> psit t x xf >= -0.5 / sigma0 ^ 2).
  { intros t x xf Ht. rewrite psit_off_0 by assumption.
    apply add_sq_ge. unfold sigma0. lra. }
  assert (Hpsi0 : forall x : R, psi0 x >= -0.5 / sigma0 ^ 2).
  { intros x. unfold psi0. apply add_sq_ge. unfold sigma0, phi0. lra. }
  split; [ exact Hstep | split; [ exact Hpsi0 | ] ].
  intros x xf. rewrite psit_at_0.
  pose proof (Hstep 1%Z x xf one_neq_0) as H1.
  pose proof (Hpsi0 x) as H2.
  revert H1 H2. unfold sigma0. lra.
Qed.

Lemma psit_lower_bounds_witness :
  (42 <> 0)%Z /\ psit 42 1 2 >= -0.5 / sigma0 ^ 2.
Proof.
  assert (H : (42 <> 0)%Z) by discriminate.
  split; [ exact H | ].
  exact (proj1 psit_lower_bounds 42%Z 1 2 H).
Defined.

(** ** Termination of [psit] *)

Lemma psit_traced_off_0 (fuel : nat) (t : Z) (x xf : R) :
  t <> 0%Z ->
  psit_traced (S fuel) t x xf = Some (psit t x xf, []).
Proof.
  intros Ht. cbn [psit_traced].
  destruct (Z.eqb_spec t 0) as [E | _]; [ contradiction | ].
  now rewrite psit_off_0 by assumption.
Qed.

Lemma psit_traced_at_0 (fuel : nat) (x xf : R) :
  psit_traced (S (S fuel)) 0 x xf = Some (psit 0 x xf, [1%Z]).
Proof.
  change (psit_traced (S (S fuel)) 0 x xf)
    with (match psit_traced (S fuel) 1 x xf with
          | Some (r, calls) => Some (psi0 x + r, 1%Z :: calls)
          | None => None
          end).
  rewrite psit_traced_off_0 by auto with psit_db.
  now rewrite psit_at_0.
Qed.

(** One activation is not enough at [t = 0]: the nested call is real. *)
Lemma psit_traced_needs_two (x xf : R) : psit_traced 1 0 x xf = None.
Proof. reflexivity. Qed.

(** C8: [psit] returns for every integer [t] and all reals [x], [xf].  Run
    with room for two nested activations (or more) it yields its value; the
    recursive calls it makes are the single call at [t = 1] when [t = 0]
    and none otherwise, so the nesting depth, which is [psit_rank t], is at
    most 1. *)
Theorem psit_terminates (t : Z) (x xf : R) :
  (forall fuel : nat,
      (2 <= fuel)%nat ->
      psit_traced fuel t x xf
      = Some (psit t x xf, if (t =? 0)%Z then [1%Z] else []))
  /\ (psit_rank t <= 1)%nat
  /\ length (if (t =? 0)%Z then [1%Z] else []) = psit_rank t
  /\ (psit_rank 1 < psit_rank 0)%nat.
Proof.
  split; [ | split; [ | split ] ].
  - intros fuel Hf.
    destruct fuel as [ | [ | fuel ] ]; [ lia | lia | ].
    destruct (Z.eqb_spec t 0) as [E | Hne].
    + subst t. apply psit_traced_at_0.
    + now apply psit_traced_off_0.
  - unfold psit_rank. destruct (t =? 0)%Z; lia.
  - unfold psit_rank. now destruct (t =? 0)%Z.
  - cbn. lia.
Qed.

Lemma psit_terminates_witness :
  (2 <= 2)%nat /\ psit_traced 2 0 1 2 = Some (psit 0 1 2, [1%Z]).
Proof.
  assert (H : (2 <= 2)%nat) by lia.
  split; [ exact H | ].
  exact (proj1 (psit_terminates 0%Z 1 2) 2%nat H).
Defined.

(** ** The data of the information filter *)

Section SliceRev.

Context {A : Type}.
Implicit Types (l : list A) (n i : nat).

Lemma slice_down_step l k :
  (k < length l)%nat ->
  exists a, nth_error l k = Some a
            /\ slice_down l (S k) = a :: slice_down l k.
Proof.
  intros Hk. cbn [slice_down].
  destruct (nth_error l k) as [a | ] eqn:E.
  - now exists a.
  - apply nth_error_None in E. lia.
Qed.

Lemma slice_down_length l n :
  (n <= length l)%nat -> length (slice_down l n) = n.
Proof.
  induction n as [ | k IH ]; intros Hn; [ reflexivity | ].
  destruct (slice_down_step l k) as (a & _ & ->); [ lia | ].
  cbn [length]. rewrite IH by lia. reflexivity.
Qed.

Lemma slice_down_nth_error l n :
  (n <= length l)%nat ->
  forall i, (i < n)%nat ->
    nth_error (slice_down l n) i = nth_error l (n - 1 - i).
Proof.
  induction n as [ | k IH ]; intros Hn i Hi; [ lia | ].
  destruct (slice_down_step l k) as (a & Ha & ->); [ lia | ].
  destruct i as [ | j ]; cbn [nth_error].
  - replace (S k - 1 - 0)%nat with k by lia. now rewrite Ha.
  - rewrite IH by lia. f_equal. lia.
Qed.

Lemma slice_rev_length l : length (slice_rev l) = length l.
Proof. apply slice_down_length. lia. Qed.

Lemma slice_rev_nth_error l i :
  (i < length l)%nat ->
  nth_error (slice_rev l) i = nth_error l (length l - 1 - i).
Proof. intros Hi. apply slice_down_nth_error; lia. Qed.

(** The slice is the list reversal of the library. *)
Lemma slice_rev_rev l : slice_rev l = rev l.
Proof.
  apply nth_error_ext. intros i.
  destruct (Nat.lt_ge_cases i (length l)) as [Hi | Hi].
  - rewrite slice_rev_nth_error by assumption.
    rewrite nth_error_rev.
    apply Nat.ltb_lt in Hi. rewrite Hi. f_equal. lia.
  - transitivity (@None A); [ | symmetry ]; apply nth_error_None.
    + rewrite slice_rev_length. lia.
    + rewrite length_rev. lia.
Qed.

End SliceRev.

(** C5: the observations of [fk_info] are the forward data in reverse:
    both sequences have length [T], and for [0 <= i < T] the [i]-th
    observation of [fk_info] is [data[T - 1 - i]]. *)
Theorem fk_info_data_reversed {Y : Type} (simulated : list Y) :
  Z.of_nat (length simulated) = T ->
  Z.of_nat (length (data (fkmod simulated))) = T
  /\ Z.of_nat (length (data (fk_info simulated))) = T
  /\ forall i : Z,
       (0 <= i < T)%Z ->
       exists y : Y,
         nth_error (data (fk_info simulated)) (Z.to_nat i) = Some y
         /\ nth_error (data (fkmod simulated)) (Z.to_nat (T - 1 - i)) = Some y.
Proof.
  intros HT. cbn [fkmod fk_info data].
  split; [ exact HT | split ].
  - now rewrite slice_rev_length.
  - intros i Hi.
    assert (Hlt : (Z.to_nat i < length simulated)%nat) by lia.
    rewrite slice_rev_nth_error by assumption.
    replace (length simulated - 1 - Z.to_nat i)%nat
      with (Z.to_nat (T - 1 - i)) by lia.
    destruct (nth_error simulated (Z.to_nat (T - 1 - i))) as [y | ] eqn:E.
    + now exists y.
    + apply nth_error_None in E. lia.
Qed.

Lemma fk_info_data_reversed_witness :
  Z.of_nat (length (seq 0 100)) = T
  /\ (0 <= 3 < T)%Z
  /\ exists y : nat,
       nth_error (data (fk_info (seq 0 100))) (Z.to_nat 3) = Some y
       /\ nth_error (data (fkmod (seq 0 100))) (Z.to_nat (T - 1 - 3)) = Some y.
Proof.
  assert (HT : Z.of_nat (length (seq 0 100)) = T) by reflexivity.
  assert (Hi : (0 <= 3 < T)%Z) by (unfold T; lia).
  split; [ exact HT | split; [ exact Hi | ] ].
  exact (proj2 (proj2 (fk_info_data_reversed (seq 0 100) HT)) 3%Z Hi).
Defined.

(** ** The experiment sweep *)

Open Scope string_scope.

Lemma dispatched_unfold :
  dispatched
  = flat_map
      (fun r =>
         map (mkTask r)
           (flat_map (fun m => map (worker_kwargs m) Ns) methods))
      (seq 0 10).
Proof. vm_compute. reflexivity. Qed.

(** The sweep is the product of the runs, the methods and the particle
    counts. *)
Lemma dispatched_iff (tk : task) :
  In tk dispatched
  <-> exists (r : nat) (m : string) (n : Z),
        (r < 10)%nat /\ In m methods /\ In n Ns
        /\ tk = mkTask r (worker_kwargs m n).
Proof.
  rewrite dispatched_unfold, in_flat_map. split.
  - intros (r & Hr & Htk).
    apply in_map_iff in Htk. destruct Htk as (a & <- & Ha).
    apply in_flat_map in Ha. destruct Ha as (m & Hm & Ha).
    apply in_map_iff in Ha. destruct Ha as (n & <- & Hn).
    apply in_seq in Hr.
    exists r, m, n. repeat split; solve [ assumption | lia ].
  - intros (r & m & n & Hr & Hm & Hn & ->).
    exists r. split; [ apply in_seq; lia | ].
    apply in_map, in_flat_map. exists m. split; [ assumption | ].
    now apply in_map.
Qed.

(** Membership in the sweep, opened up: names the run, the method and the
    particle count of the evaluation [H] is about. *)
Ltac dispatched_inv H r m n :=
  let Hr := fresh "Hr" in
  let Hm := fresh "Hm" in
  let Hn := fresh "Hn" in
  apply dispatched_iff in H;
  destruct H as (r & m & n & Hr & Hm & Hn & ->).

Lemma dispatched_intro (r : nat) (m : string) (n : Z) :
  (r < 10)%nat -> In m methods -> In n Ns ->
  In (mkTask r (worker_kwargs m n)) dispatched.
Proof.
  intros Hr Hm Hn. apply dispatched_iff. now exists r, m, n.
Qed.

Lemma methods_enum (s : string) :
  In s methods <-> exists m : method, method_name m = s.
Proof.
  split.
  - intros H. cbn in H.
    destruct H as [<- | [<- | [<- | [<- | [<- | []]]]]];
      [ exists FFBS_ON | exists FFBS_ON2 | exists two_filter_ON
      | exists two_filter_ON_prop | exists two_filter_ON2 ]; reflexivity.
  - intros (m & <-). destruct m; cbn; tauto.
Qed.

Lemma method_name_inj (m1 m2 : method) :
  method_name m1 = method_name m2 -> m1 = m2.
Proof. destruct m1, m2; cbn; intros H; solve [ reflexivity | discriminate H ]. Qed.

Lemma Ns_enum (n : Z) :
  In n Ns <-> (n = 100 \/ n = 400 \/ n = 1600 \/ n = 6400)%Z.
Proof. cbn. intuition congruence. Qed.

(** C6: the method names of the dispatched evaluations are exactly the
    names of the five-element enumeration: the list [methods] holds each of
    the five names once, every evaluation carries one of them, and each of
    them is carried by some evaluation. *)
Theorem dispatched_methods_closed :
  length methods = 5%nat
  /\ NoDup methods
  /\ (forall s : string,
        In s methods <-> exists m : method, method_name m = s)
  /\ (forall s : string,
        (exists tk : task, In tk dispatched /\ task_method tk = Some s)
        <-> (exists m : method, method_name m = s)).
Proof.
  split; [ reflexivity | ].
  split.
  { unfold methods. repeat constructor; cbn; intuition discriminate. }
  split; [ exact methods_enum | ].
  intros s. rewrite <- methods_enum. split.
  - intros (tk & Hin & Hs).
    dispatched_inv Hin r m n.
    cbn in Hs. now injection Hs as <-.
  - intros Hs.
    exists (mkTask 0 (worker_kwargs s 100)). split; [ | reflexivity ].
    apply dispatched_intro; [ lia | assumption | cbn; tauto ].
Qed.

Lemma dispatched_methods_closed_witness :
  exists tk : task,
    In tk dispatched /\ task_method tk = Some "two-filter_ON_prop".
Proof.
  apply (proj2 (proj2 (proj2 (proj2 dispatched_methods_closed))
                  "two-filter_ON_prop")).
  exists two_filter_ON_prop. reflexivity.
Defined.

Lemma runs_of_swept (m : string) (n : Z) :
  In m methods -> In n Ns -> runs_of m n = seq 0 10.
Proof.
  intros Hm Hn. cbn in Hm, Hn.
  destruct Hm as [<- | [<- | [<- | [<- | [<- | []]]]]];
    destruct Hn as [<- | [<- | [<- | [<- | []]]]];
    vm_compute; reflexivity.
Qed.

(** C7: the configuration of the experiment: [T = 100], [mu0 = 0],
    [phi0 = 0.9], [sigma0 = 0.5]; the particle counts of the sweep are
    exactly 100, 400, 1600 and 6400; [nruns] is 10; every evaluation is for
    a listed method and particle count, each such pair is run 10 times
    (runs 0 to 9), and the pair ([FFBS_ON2], 1600) is among them. *)
Theorem experiment_configuration :
  T = 100%Z /\ mu0 = 0%R /\ phi0 = (9 / 10)%R /\ sigma0 = (5 / 10)%R
  /\ (forall n : Z,
        In n Ns <-> (n = 100 \/ n = 400 \/ n = 1600 \/ n = 6400)%Z)
  /\ lookup "nruns" multiplexer_call = Some (PyInt 10)
  /\ (forall tk : task,
        In tk dispatched ->
        exists (m : string) (n : Z),
          task_method tk = Some m /\ task_N tk = Some n
          /\ In m methods /\ In n Ns)
  /\ (forall (m : string) (n : Z),
        In m methods -> In n Ns ->
        runs_of m n = seq 0 10 /\ (length (runs_of m n) >= 10)%nat)
  /\ runs_of "FFBS_ON2" 1600 = seq 0 10.
Proof.
  split; [ reflexivity | ].
  split; [ reflexivity | ].
  split; [ unfold phi0; lra | ].
  split; [ unfold sigma0; lra | ].
  split; [ exact Ns_enum | ].
  split; [ reflexivity | ].
  split; [ | split ].
  - intros tk Hin. dispatched_inv Hin r m n.
    exists m, n. repeat split; assumption.
  - intros m n Hm Hn. rewrite runs_of_swept by assumption.
    split; [ reflexivity | cbn; lia ].
  - vm_compute. reflexivity.
Qed.

Lemma experiment_configuration_witness :
  In "two-filter_ON" methods /\ In 6400%Z Ns
  /\ runs_of "two-filter_ON" 6400 = seq 0 10
  /\ (length (runs_of "two-filter_ON" 6400) >= 10)%nat.
Proof.
  assert (Hm : In "two-filter_ON" methods) by (cbn; tauto).
  assert (Hn : In 6400%Z Ns) by (cbn; tauto).
  split; [ exact Hm | split; [ exact Hn | ] ].
  exact (proj1 (proj2 (proj2 (proj2 (proj2 (proj2 (proj2
           (proj2 experiment_configuration)))))))
           "two-filter_ON" 6400%Z Hm Hn).
Defined.

(** ** Seeds *)

(** The first evaluation of the sweep. *)
Lemma first_dispatched :
  In (mkTask 0 (worker_kwargs "FFBS_ON" 100)) dispatched.
Proof.
  apply dispatched_intro; [ lia | cbn; tauto | cbn; tauto ].
Qed.








Close Scope string_scope.

(** * Part III: further properties of the script *)

(** ** Tactics and facts for the derivatives *)

(** [field] does not read decimal literals; this writes the ones of the
    script as fractions first. *)
Ltac dec_field :=
  repeat match goal with
         | |- context [ -0.5 ] => replace (-0.5) with (- (1 / 2)) by lra
         | |- context [ 0.5 ] => replace 0.5 with (1 / 2) by lra
         | |- context [ 0.9 ] => replace 0.9 with (9 / 10) by lra
         | |- context [ 1.0 ] => replace 1.0 with 1 by lra
         end;
  field.

Lemma derivable_pt_lim_eq (f : R -> R) (x l l' : R) :
  derivable_pt_lim f x l -> l = l' -> derivable_pt_lim f x l'.
Proof. now intros H <-. Qed.

Lemma derivable_pt_lim_Rinv (v : R) :
  v <> 0 -> derivable_pt_lim (fun u => / u) v (- / v ^ 2).
Proof.
  intros Hv.
  apply (derivable_pt_lim_ext (fct_cte 1 / id)%F).
  { intros z. unfold div_fct, fct_cte, id. lra. }
  assert (H : derivable_pt_lim (fct_cte 1 / id)%F v
                ((0 * id v - 1 * fct_cte 1 v) / Rsqr (id v))).
  { apply derivable_pt_lim_div;
      [ apply derivable_pt_lim_const | apply derivable_pt_lim_id | exact Hv ]. }
  apply (derivable_pt_lim_eq _ _ _ _ H).
  unfold id, fct_cte, Rsqr. now field.
Qed.

(** The derivative, in [u], of the log-density of N(m, c u) at a fixed
    point [x]. *)
Lemma ln_gauss_pdf_deriv_var (m c x v : R) :
  0 < c -> 0 < v ->
  derivable_pt_lim (fun u => ln (gauss_pdf m (c * u) x)) v
    (-0.5 / v + (x - m) ^ 2 / (2 * c) / v ^ 2).
Proof.
  intros Hc Hv.
  set (K := (x - m) ^ 2 / (2 * c)).
  set (g := fun u : R => -0.5 * ln (2 * PI * c) + (-0.5 * ln u - K * / u)).
  assert (Hg : derivable_pt_lim g v (0 + (-0.5 * / v - K * (- / v ^ 2)))).
  { apply (derivable_pt_lim_plus (fct_cte (-0.5 * ln (2 * PI * c)))
             (fun u => -0.5 * ln u - K * / u)).
    - apply derivable_pt_lim_const.
    - apply (derivable_pt_lim_minus (mult_real_fct (-0.5) ln)
               (mult_real_fct K (fun u => / u))).
      + apply derivable_pt_lim_scal, derivable_pt_lim_ln, Hv.
      + apply derivable_pt_lim_scal, derivable_pt_lim_Rinv. lra. }
  assert (Hloc : derivable_pt_lim (fun u => ln (gauss_pdf m (c * u) x)) v
                   (0 + (-0.5 * / v - K * (- / v ^ 2)))).
  { apply (derivable_pt_lim_locally_ext g _ v (v / 2) (v + 1));
      [ lra | | exact Hg ].
    intros z Hz. unfold g.
    assert (Hz0 : 0 < z) by lra.
    rewrite ln_gauss_pdf by nra.
    replace (2 * PI * (c * z)) with ((2 * PI * c) * z) by ring.
    rewrite (ln_mult (2 * PI * c))
      by (try assumption; pose proof PI_RGT_0; nra).
    unfold K. dec_field. lra. }
  apply (derivable_pt_lim_eq _ _ _ _ Hloc).
  unfold K. dec_field. lra.
Qed.

Lemma sigma0_sq_pos : 0 < sigma0 ^ 2.
Proof. unfold sigma0. lra. Qed.

(** Around the true variance the models of the family have a positive
    variance, which their [sigma] squares back to. *)
Lemma ssm_of_variance_near (z : R) :
  sigma0 ^ 2 / 2 < z < sigma0 ^ 2 + 1 ->
  0 < z /\ sigma (ssm_of_variance z) ^ 2 = z.
Proof.
  intros Hz. pose proof sigma0_sq_pos.
  split; [ lra | ]. cbn [ssm_of_variance sigma]. apply pow2_sqrt. lra.
Qed.

(** The derivative of the transition log-density in the variance, at the
    true variance. *)
Lemma log_pt_deriv_var (x xf : R) :
  derivable_pt_lim (fun v => log_pt (ssm_of_variance v) x xf) (sigma0 ^ 2)
    (-0.5 / sigma0 ^ 2
     + (0.5 / sigma0 ^ 4) * ((xf - mu0) - phi0 * (x - mu0)) ^ 2).
Proof.
  pose proof sigma0_sq_pos as Hv.
  pose proof (ln_gauss_pdf_deriv_var (mu0 + phi0 * (x - mu0)) 1 xf
                (sigma0 ^ 2) Rlt_0_1 Hv) as H.
  eapply derivable_pt_lim_eq.
  - apply (derivable_pt_lim_locally_ext
             (fun u => ln (gauss_pdf (mu0 + phi0 * (x - mu0)) (1 * u) xf))
             _ _ (sigma0 ^ 2 / 2) (sigma0 ^ 2 + 1)); [ lra | | exact H ].
    intros z Hz. destruct (ssm_of_variance_near z Hz) as [_ Hs].
    unfold log_pt. rewrite Hs. cbn [ssm_of_variance mu phi].
    now rewrite Rmult_1_l.
  - unfold sigma0. dec_field.
Qed.

(** The derivative of the initial log-density in the variance, at the true
    variance. *)
Lemma log_p0_deriv_var (x : R) :
  derivable_pt_lim (fun v => log_p0 (ssm_of_variance v) x) (sigma0 ^ 2)
    (psi0 x).
Proof.
  pose proof sigma0_sq_pos as Hv.
  pose proof one_minus_phi0_sq_pos as Hp.
  assert (Hc : 0 < / (1 - phi0 ^ 2)) by now apply Rinv_0_lt_compat.
  pose proof (ln_gauss_pdf_deriv_var mu0 (/ (1 - phi0 ^ 2)) x
                (sigma0 ^ 2) Hc Hv) as H.
  eapply derivable_pt_lim_eq.
  - apply (derivable_pt_lim_locally_ext
             (fun u => ln (gauss_pdf mu0 (/ (1 - phi0 ^ 2) * u) x))
             _ _ (sigma0 ^ 2 / 2) (sigma0 ^ 2 + 1)); [ lra | | exact H ].
    intros z Hz. destruct (ssm_of_variance_near z Hz) as [_ Hs].
    unfold log_p0. rewrite Hs. cbn [ssm_of_variance mu phi].
    f_equal. f_equal. unfold Rdiv. ring.
  - unfold psi0, sigma0, phi0. dec_field.
Qed.

(** ** How tight the bound on the transition density is *)

Lemma sq_div_zero_iff (d v : R) : 0 < v -> d ^ 2 / (2 * v) = 0 <-> d = 0.
Proof.
  intros Hv. split.
  - intros H.
    assert (Hd : d ^ 2 = 0).
    { apply (Rmult_eq_reg_r (/ (2 * v))).
      - rewrite Rmult_0_l. exact H.
      - apply Rinv_neq_0_compat. lra. }
    nra.
  - intros ->. unfold Rdiv. ring.
Qed.

(** X1: for [sigma > 0] the bound exceeds the log transition density by
    exactly [(x' - m)^2 / (2 sigma^2)], [m = mu + phi (x - mu)] the mean of
    the transition; the two are equal exactly at [x' = m], so the bound is
    the least one. *)
Theorem upper_bound_log_pt_gap (self : DiscreteCox) :
  0 < sigma self ->
  forall (t : Z) (x x' : R),
    upper_bound_log_pt self t - log_pt self x x'
    = (x' - (mu self + phi self * (x - mu self))) ^ 2 / (2 * sigma self ^ 2)
    /\ (log_pt self x x' = upper_bound_log_pt self t
        <-> x' = mu self + phi self * (x - mu self)).
Proof.
  intros Hs t x x'.
  assert (Hv : 0 < sigma self ^ 2) by nra.
  assert (Hgap : upper_bound_log_pt self t - log_pt self x x'
                 = (x' - (mu self + phi self * (x - mu self))) ^ 2
                   / (2 * sigma self ^ 2)).
  { unfold log_pt, upper_bound_log_pt. rewrite ln_gauss_pdf by assumption.
    lra. }
  split; [ exact Hgap | ].
  pose proof (sq_div_zero_iff
                (x' - (mu self + phi self * (x - mu self))) _ Hv) as Hz.
  split.
  - intros E. rewrite E, Rminus_diag in Hgap. symmetry in Hgap.
    apply Hz in Hgap. lra.
  - intros E.
    assert (E0 : x' - (mu self + phi self * (x - mu self)) = 0) by lra.
    apply Hz in E0. lra.
Qed.

Lemma upper_bound_log_pt_gap_witness :
  0 < sigma my_ssm
  /\ upper_bound_log_pt my_ssm 5 - log_pt my_ssm 1 2
     = (2 - (mu my_ssm + phi my_ssm * (1 - mu my_ssm))) ^ 2
       / (2 * sigma my_ssm ^ 2).
Proof.
  assert (Hs : 0 < sigma my_ssm) by (cbn; unfold sigma0; lra).
  split; [ exact Hs | ].
  exact (proj1 (upper_bound_log_pt_gap my_ssm Hs 5%Z 1 2)).
Defined.

(** X2: the bound does not rise as the noise grows: of two models the one
    with the larger [sigma] has a bound that is no larger, at any time
    indices. *)
Theorem upper_bound_log_pt_nonincreasing (m1 m2 : DiscreteCox) (t1 t2 : Z) :
  0 < sigma m1 -> sigma m1 <= sigma m2 ->
  upper_bound_log_pt m2 t2 <= upper_bound_log_pt m1 t1.
Proof.
  intros H1 H12. unfold upper_bound_log_pt.
  assert (Hle : ln (2 * PI * sigma m1 ^ 2) <= ln (2 * PI * sigma m2 ^ 2)).
  { pose proof two_PI_pos as Hpi.
    assert (Hp : 0 < sigma m1 ^ 2) by nra.
    assert (Hq : sigma m1 ^ 2 <= sigma m2 ^ 2) by nra.
    destruct Hq as [Hlt | Heq].
    - apply Rlt_le, ln_increasing.
      + now apply Rmult_lt_0_compat.
      + now apply Rmult_lt_compat_l.
    - rewrite Heq. apply Rle_refl. }
  lra.
Qed.

Lemma upper_bound_log_pt_nonincreasing_witness :
  0 < sigma my_ssm
  /\ sigma my_ssm <= sigma (mkDiscreteCox 0 0.9 1)
  /\ upper_bound_log_pt (mkDiscreteCox 0 0.9 1) 4
     <= upper_bound_log_pt my_ssm 7.
Proof.
  assert (H1 : 0 < sigma my_ssm) by (cbn; unfold sigma0; lra).
  assert (H2 : sigma my_ssm <= sigma (mkDiscreteCox 0 0.9 1))
    by (cbn; unfold sigma0; lra).
  split; [ exact H1 | split; [ exact H2 | ] ].
  exact (upper_bound_log_pt_nonincreasing my_ssm (mkDiscreteCox 0 0.9 1)
           7%Z 4%Z H1 H2).
Defined.

(** ** The prior of the information filter, in closed form *)

Lemma gamma_variance_pos : 0 < sigma0 ^ 2 / (1 - phi0 ^ 2).
Proof. unfold sigma0, phi0. lra. Qed.

Lemma log_gamma_quadratic (x : R) :
  log_gamma x
  = -0.5 * ln (2 * PI * (sigma0 ^ 2 / (1 - phi0 ^ 2)))
    - (x - mu0) ^ 2 / (2 * (sigma0 ^ 2 / (1 - phi0 ^ 2))).
Proof.
  unfold log_gamma.
  replace (1.0 - phi0 ^ 2) with (1 - phi0 ^ 2) by lra.
  rewrite norm_logpdf_gauss by apply gamma_scale_pos.
  rewrite sq_div_sqrt by apply one_minus_phi0_sq_pos.
  apply ln_gauss_pdf, gamma_variance_pos.
Qed.

Lemma log_pt_my_ssm_quadratic (x x' : R) :
  log_pt my_ssm x x'
  = -0.5 * ln (2 * PI * sigma0 ^ 2)
    - (x' - (mu0 + phi0 * (x - mu0))) ^ 2 / (2 * sigma0 ^ 2).
Proof.
  unfold log_pt. cbn [my_ssm mu phi sigma].
  apply ln_gauss_pdf, sigma0_sq_pos.
Qed.

(** X3: the prior and the transition are in detailed balance: being at [x]
    under [gamma] and moving to [x'] has the same log-density as being at
    [x'] and moving to [x].  The state process started from [gamma] is
    reversible, which is what lets the information filter reuse the same
    model on the data in reverse. *)
Theorem gamma_transition_reversible (x x' : R) :
  log_gamma x + log_pt my_ssm x x' = log_gamma x' + log_pt my_ssm x' x.
Proof.
  rewrite !log_gamma_quadratic, !log_pt_my_ssm_quadratic.
  unfold sigma0, phi0, mu0. dec_field.
Qed.

(** X4: [log_gamma] is a downward parabola around [mu0]: it falls short of
    its value at [mu0] by [(1 - phi0^2) (x - mu0)^2 / (2 sigma0^2)], takes
    the same value at [mu0 + d] and [mu0 - d], and is nowhere larger than
    at [mu0]. *)
Theorem log_gamma_shape :
  (forall x : R,
      log_gamma x
      = log_gamma mu0 - (1 - phi0 ^ 2) * (x - mu0) ^ 2 / (2 * sigma0 ^ 2))
  /\ (forall d : R, log_gamma (mu0 + d) = log_gamma (mu0 - d))
  /\ (forall x : R, log_gamma x <= log_gamma mu0).
Proof.
  assert (Hform : forall x : R,
             log_gamma x
             = log_gamma mu0
               - (1 - phi0 ^ 2) * (x - mu0) ^ 2 / (2 * sigma0 ^ 2)).
  { intros x. rewrite !log_gamma_quadratic.
    unfold sigma0, phi0, mu0. dec_field. }
  split; [ exact Hform | split ].
  - intros d. rewrite (Hform (mu0 + d)), (Hform (mu0 - d)).
    unfold sigma0, phi0. dec_field.
  - intros x. rewrite (Hform x).
    pose proof (pow2_ge_0 (x - mu0)). unfold sigma0, phi0. lra.
Qed.

(** ** The functional is the score of the noise variance *)

Lemma ssm_of_variance_true : ssm_of_variance (sigma0 ^ 2) = my_ssm.
Proof.
  unfold ssm_of_variance, my_ssm. f_equal.
  apply sqrt_pow2. unfold sigma0. lra.
Qed.

(** X5: [psi0 x] is the derivative of the initial log-density of [x] in the
    variance of the state noise, taken at the true variance [sigma0^2],
    where the model of the family is [my_ssm]. *)
Theorem psi0_is_initial_score (x : R) :
  ssm_of_variance (sigma0 ^ 2) = my_ssm
  /\ derivable_pt_lim (fun v => log_p0 (ssm_of_variance v) x) (sigma0 ^ 2)
       (psi0 x).
Proof. split; [ exact ssm_of_variance_true | apply log_p0_deriv_var ]. Qed.

(** X6: [psit t x xf] is the score of one step in the variance of the state
    noise at the true parameters: the derivative of the transition
    log-density from [x] to [xf], to which the initial log-density of [x]
    is added when [t = 0]. *)
Theorem psit_is_step_score (t : Z) (x xf : R) :
  derivable_pt_lim
    (fun v =>
       (if (t =? 0)%Z then log_p0 (ssm_of_variance v) x else 0)
       + log_pt (ssm_of_variance v) x xf)
    (sigma0 ^ 2) (psit t x xf).
Proof.
  destruct (Z.eqb_spec t 0) as [E | Hne].
  - subst t. rewrite psit_at_0, psit_off_0 by auto with psit_db.
    apply (derivable_pt_lim_plus
             (fun v => log_p0 (ssm_of_variance v) x)
             (fun v => log_pt (ssm_of_variance v) x xf)).
    + apply log_p0_deriv_var.
    + apply log_pt_deriv_var.
  - rewrite psit_off_0 by assumption.
    eapply derivable_pt_lim_eq.
    + apply (derivable_pt_lim_plus (fct_cte 0)
               (fun v => log_pt (ssm_of_variance v) x xf)).
      * apply derivable_pt_lim_const.
      * apply log_pt_deriv_var.
    + lra.
Qed.

(** Past the first step the terms of the sum are the derivatives of the
    transitions. *)
Lemma add_func_from_deriv (xs : list R) :
  forall t : Z,
    (0 < t)%Z ->
    derivable_pt_lim (fun v => log_transitions (ssm_of_variance v) xs)
      (sigma0 ^ 2) (add_func_from t xs).
Proof.
  induction xs as [ | x rest IH ]; intros t Ht.
  - apply (derivable_pt_lim_const 0).
  - destruct rest as [ | xf rest' ].
    + apply (derivable_pt_lim_const 0).
    + cbn [add_func_from].
      rewrite psit_off_0 by lia.
      apply (derivable_pt_lim_plus
               (fun v => log_pt (ssm_of_variance v) x xf)
               (fun v => log_transitions (ssm_of_variance v) (xf :: rest'))).
      * apply log_pt_deriv_var.
      * apply IH. lia.
Qed.

(** X7: along a path of at least two states the additive functional
    [sum_t psit t x_t x_{t+1}] is the score of the whole path: the
    derivative of its log-density (initial law and all transitions) in the
    variance of the state noise, at the true parameters. *)
Theorem add_func_sum_is_path_score (xs : list R) :
  (2 <= length xs)%nat ->
  derivable_pt_lim (fun v => log_path (ssm_of_variance v) xs) (sigma0 ^ 2)
    (add_func_sum xs).
Proof.
  intros Hlen.
  destruct xs as [ | x0 [ | x1 rest ] ]; cbn [length] in Hlen; try lia.
  unfold add_func_sum.
  change (add_func_from 0 (x0 :: x1 :: rest))
    with (psit 0 x0 x1 + add_func_from (0 + 1) (x1 :: rest)).
  cbn [log_path].
  rewrite psit_at_0, psit_off_0 by auto with psit_db.
  rewrite Rplus_assoc.
  apply (derivable_pt_lim_plus
           (fun v => log_p0 (ssm_of_variance v) x0)
           (fun v => log_transitions (ssm_of_variance v) (x0 :: x1 :: rest))).
  - apply log_p0_deriv_var.
  - apply (derivable_pt_lim_plus
             (fun v => log_pt (ssm_of_variance v) x0 x1)
             (fun v => log_transitions (ssm_of_variance v) (x1 :: rest))).
    + apply log_pt_deriv_var.
    + apply add_func_from_deriv. lia.
Qed.

Lemma add_func_sum_is_path_score_witness :
  (2 <= length [1; 2; 3])%nat
  /\ derivable_pt_lim (fun v => log_path (ssm_of_variance v) [1; 2; 3])
       (sigma0 ^ 2) (add_func_sum [1; 2; 3]).
Proof.
  assert (H : (2 <= length [1; 2; 3])%nat) by (cbn; lia).
  split; [ exact H | ].
  exact (add_func_sum_is_path_score [1; 2; 3] H).
Defined.

(** X8: with a single state there is no term to add and the sum is 0,
    while the log-density of the path still varies with the variance, at
    the rate [psi0 x0]; that rate is 0 only when [x0] lies one standard
    deviation of the initial law away from [mu0].  So the functional is the
    score from two states on, and in general not before. *)
Theorem add_func_sum_single_state (x0 : R) :
  add_func_sum [x0] = 0
  /\ derivable_pt_lim (fun v => log_path (ssm_of_variance v) [x0])
       (sigma0 ^ 2) (psi0 x0)
  /\ (psi0 x0 = 0 <-> (x0 - mu0) ^ 2 = sigma0 ^ 2 / (1 - phi0 ^ 2)).
Proof.
  split; [ reflexivity | split ].
  - eapply derivable_pt_lim_eq.
    + apply (derivable_pt_lim_plus
               (fun v => log_p0 (ssm_of_variance v) x0) (fct_cte 0)).
      * apply log_p0_deriv_var.
      * apply derivable_pt_lim_const.
    + lra.
  - unfold psi0, sigma0, phi0. split; intros H; lra.
Qed.

(** ** Where the functional is smallest, and that it has no largest value *)

(** The innovation of a step: how far [xf] lies from the mean of the
    transition out of [x]. *)
Lemma psit_off_0_innovation (t : Z) (x xf : R) :
  t <> 0%Z ->
  psit t x xf
  = -0.5 / sigma0 ^ 2 + 8 * ((xf - mu0) - phi0 * (x - mu0)) ^ 2.
Proof.
  intros Ht. rewrite psit_off_0 by assumption. unfold sigma0. lra.
Qed.

Lemma psi0_quadratic (x : R) :
  psi0 x = -0.5 / sigma0 ^ 2 + (152 / 100) * (x - mu0) ^ 2.
Proof. unfold psi0, sigma0, phi0. lra. Qed.

(** X9: the lower bounds are reached: a step term equals
    [-0.5 / sigma0^2] when [xf] is the mean of the transition out of [x],
    [psi0] does at [mu0], and the term at [t = 0] equals [-1 / sigma0^2] at
    [x = xf = mu0]. *)
Theorem psit_minimum_attained :
  (forall (t : Z) (x xf : R),
      t <> 0%Z ->
      xf - mu0 = phi0 * (x - mu0) ->
      psit t x xf = -0.5 / sigma0 ^ 2)
  /\ psi0 mu0 = -0.5 / sigma0 ^ 2
  /\ psit 0 mu0 mu0 = -1 / sigma0 ^ 2.
Proof.
  split; [ | split ].
  - intros t x xf Ht H. rewrite psit_off_0_innovation by assumption.
    replace (xf - mu0 - phi0 * (x - mu0)) with 0 by lra. lra.
  - rewrite psi0_quadratic. lra.
  - rewrite psit_at_0, psi0_quadratic, psit_off_0_innovation
      by auto with psit_db.
    unfold sigma0. lra.
Qed.

Lemma psit_minimum_attained_witness :
  (3 <> 0)%Z
  /\ (mu0 + phi0 * (1 - mu0)) - mu0 = phi0 * (1 - mu0)
  /\ psit 3 1 (mu0 + phi0 * (1 - mu0)) = -0.5 / sigma0 ^ 2.
Proof.
  assert (H : (3 <> 0)%Z) by discriminate.
  assert (E : (mu0 + phi0 * (1 - mu0)) - mu0 = phi0 * (1 - mu0)) by ring.
  split; [ exact H | split; [ exact E | ] ].
  exact (proj1 psit_minimum_attained 3%Z 1 (mu0 + phi0 * (1 - mu0)) H E).
Defined.

Lemma psit_off_0_ge (t : Z) (x xf : R) :
  t <> 0%Z -> psit t x xf >= -0.5 / sigma0 ^ 2.
Proof.
  intros Ht. rewrite psit_off_0_innovation by assumption.
  pose proof (pow2_ge_0 ((xf - mu0) - phi0 * (x - mu0))). lra.
Qed.

Lemma psi0_ge (x : R) : psi0 x >= -0.5 / sigma0 ^ 2.
Proof. rewrite psi0_quadratic. pose proof (pow2_ge_0 (x - mu0)). lra. Qed.

(** X10: the functional has no upper bound: from any state [x], at any
    time index, some next state [xf] takes [psit] above any given level. *)
Theorem psit_unbounded_above (t : Z) (x M : R) :
  exists xf : R, psit t x xf > M.
Proof.
  exists (mu0 + phi0 * (x - mu0) + (1 + Rabs M)).
  assert (Hstep : forall t' : Z,
             t' <> 0%Z ->
             psit t' x (mu0 + phi0 * (x - mu0) + (1 + Rabs M)) > M + 2).
  { intros t' Ht'. rewrite psit_off_0_innovation by assumption.
    replace (mu0 + phi0 * (x - mu0) + (1 + Rabs M) - mu0 - phi0 * (x - mu0))
      with (1 + Rabs M) by ring.
    pose proof (Rabs_pos M) as Hp. pose proof (Rle_abs M) as Hle.
    unfold sigma0. nra. }
  destruct (Z.eqb_spec t 0) as [E | Hne].
  - subst t. rewrite psit_at_0.
    pose proof (Hstep 1%Z one_neq_0) as H1.
    pose proof (psi0_ge x) as H2. revert H1 H2. unfold sigma0. lra.
  - pose proof (Hstep t Hne). lra.
Qed.

(** ** A lower bound for the sum along a path *)

Lemma add_func_from_ge (xs : list R) :
  forall t : Z,
    (0 < t)%Z ->
    add_func_from t xs >= - (0.5 / sigma0 ^ 2) * INR (length xs - 1).
Proof.
  induction xs as [ | x rest IH ]; intros t Ht.
  - cbn. lra.
  - destruct rest as [ | xf rest' ].
    + cbn. lra.
    + change (add_func_from t (x :: xf :: rest'))
        with (psit t x xf + add_func_from (t + 1) (xf :: rest')).
      assert (Hne : t <> 0%Z) by lia.
      pose proof (psit_off_0_ge t x xf Hne) as H1.
      assert (Ht1 : (0 < t + 1)%Z) by lia.
      pose proof (IH (t + 1)%Z Ht1) as H2.
      replace (length (x :: xf :: rest') - 1)%nat
        with (S (length (xf :: rest') - 1)) by (cbn; lia).
      rewrite S_INR. revert H1 H2. unfold sigma0. lra.
Qed.

(** X11: along a path of [n >= 2] states the sum is at least
    [- n * 0.5 / sigma0^2]: each of its [n - 1] terms is at least
    [-0.5 / sigma0^2], and the term at [t = 0] carries [psi0] besides. *)
Theorem add_func_sum_lower_bound (xs : list R) :
  (2 <= length xs)%nat ->
  add_func_sum xs >= - (0.5 / sigma0 ^ 2) * INR (length xs).
Proof.
  intros Hlen.
  destruct xs as [ | x0 [ | x1 rest ] ]; cbn [length] in Hlen; try lia.
  unfold add_func_sum.
  change (add_func_from 0 (x0 :: x1 :: rest))
    with (psit 0 x0 x1 + add_func_from (0 + 1) (x1 :: rest)).
  rewrite psit_at_0.
  pose proof (psi0_ge x0) as H0.
  pose proof (psit_off_0_ge 1 x0 x1 one_neq_0) as H1.
  assert (Hpos : (0 < 0 + 1)%Z) by lia.
  pose proof (add_func_from_ge (x1 :: rest) (0 + 1)%Z Hpos) as H2.
  replace (length (x0 :: x1 :: rest))
    with (S (S (length (x1 :: rest) - 1))) by (cbn; lia).
  rewrite !S_INR. revert H0 H1 H2. unfold sigma0. lra.
Qed.

Lemma add_func_sum_lower_bound_witness :
  (2 <= length [1; 2; 3])%nat
  /\ add_func_sum [1; 2; 3] >= - (0.5 / sigma0 ^ 2) * INR (length [1; 2; 3]).
Proof.
  assert (H : (2 <= length [1; 2; 3])%nat) by (cbn; lia).
  split; [ exact H | ].
  exact (add_func_sum_lower_bound [1; 2; 3] H).
Defined.

(** ** The reversed data, once more *)

(** X12: the data of the information filter are the forward data read
    backwards, whatever their length: the slice is the list reversal, it
    holds the same observations the same number of times, building the
    information filter's data from the information filter's data gives the
    forward data back, and both filters share one state-space model. *)
Theorem fk_info_round_trip {Y : Type} (simulated : list Y) :
  data (fk_info simulated) = rev (data (fkmod simulated))
  /\ Permutation (data (fk_info simulated)) (data (fkmod simulated))
  /\ data (fk_info (data (fk_info simulated))) = data (fkmod simulated)
  /\ ssm (fk_info simulated) = ssm (fkmod simulated).
Proof.
  cbn [fk_info fkmod data ssm]. rewrite !slice_rev_rev.
  split; [ reflexivity | split; [ | split ] ].
  - apply Permutation_sym, Permutation_rev.
  - apply rev_involutive.
  - reflexivity.
Qed.

(** X13: data that grow at the end grow at the front of the information
    filter: the reversal of a concatenation is the reversals concatenated
    the other way round, and no data give no data. *)
Theorem slice_rev_app {A : Type} (l1 l2 : list A) :
  slice_rev (l1 ++ l2) = slice_rev l2 ++ slice_rev l1
  /\ slice_rev (@nil A) = [].
Proof.
  split; [ | reflexivity ].
  rewrite !slice_rev_rev. apply rev_app_distr.
Qed.

(** ** The tables of the plots *)

Section Dicts.

Implicit Types (d : pydict) (k v : string).

Lemma dict_get_set_same k v d : dict_get k (dict_set k v d) = Some v.
Proof.
  induction d as [ | [k' v'] d IH ]; cbn.
  - now rewrite String.eqb_refl.
  - destruct (String.eqb_spec k k') as [ <- | Hne ]; cbn.
    + now rewrite String.eqb_refl.
    + apply String.eqb_neq in Hne. now rewrite Hne.
Qed.

Lemma dict_get_set_other k k' v d :
  k <> k' -> dict_get k' (dict_set k v d) = dict_get k' d.
Proof.
  intros Hne.
  induction d as [ | [k0 v0] d IH ]; cbn.
  - destruct (String.eqb_spec k' k) as [ E | _ ]; [ congruence | reflexivity ].
  - destruct (String.eqb_spec k k0) as [ <- | Hk ]; cbn.
    + destruct (String.eqb_spec k' k) as [ E | _ ]; [ congruence | reflexivity ].
    + now rewrite IH.
Qed.

(** Assigning to a key the dict has keeps the keys and their order. *)
Lemma dict_set_keys_present k v d :
  dict_get k d <> None -> map fst (dict_set k v d) = map fst d.
Proof.
  induction d as [ | [k0 v0] d IH ]; cbn; intros H.
  - contradiction.
  - destruct (String.eqb_spec k k0) as [ <- | Hk ]; cbn.
    + reflexivity.
    + now rewrite IH.
Qed.

End Dicts.

Section Traverse.

Context {A B : Type}.
Variable f : A -> option B.

Lemma traverse_Some (l : list A) :
  (forall a, In a l -> exists b, f a = Some b) ->
  exists bs, traverse f l = Some bs /\ length bs = length l.
Proof.
  induction l as [ | a l IH ]; intros H.
  - now exists [].
  - destruct (H a (or_introl eq_refl)) as (b & Hb).
    destruct IH as (bs & Hbs & Hlen).
    { intros a' Ha'. apply H. now right. }
    exists (b :: bs). cbn. rewrite Hb, Hbs. split; [ reflexivity | ].
    cbn. now rewrite Hlen.
Qed.

(** One failing element makes the whole comprehension fail. *)
Lemma traverse_None (l : list A) (a : A) :
  In a l -> f a = None -> traverse f l = None.
Proof.
  induction l as [ | a' l IH ]; intros Hin Hf; [ contradiction | ].
  cbn. destruct Hin as [ -> | Hin ].
  - now rewrite Hf.
  - destruct (f a'); [ | reflexivity ]. now rewrite IH.
Qed.

End Traverse.

Open Scope string_scope.

(** X14: [pretty_names] and [methods] are in step: the dict has an entry
    for exactly the method names of the sweep, each once, and no two
    methods share a label; so the look-up of the label of every result
    raises no [KeyError] and the [hue] list of the box-plot is built, one
    label per result. *)
Theorem pretty_names_cover_methods :
  (forall s : string, In s methods <-> In s (map fst pretty_names))
  /\ NoDup (map fst pretty_names)
  /\ NoDup (map snd pretty_names)
  /\ (forall tk : task,
        In tk dispatched ->
        exists m lab : string,
          task_method tk = Some m /\ dict_get m pretty_names = Some lab)
  /\ (exists labels : list string,
        boxplot_hue = Some labels /\ length labels = length dispatched).
Proof.
  assert (Hkeys : map fst pretty_names
                  = ["FFBS_ON"; "FFBS_ON2"; "two-filter_ON";
                     "two-filter_ON2"; "two-filter_ON_prop"])
    by reflexivity.
  assert (Hlab : forall tk : task,
             In tk dispatched ->
             exists m lab : string,
               task_method tk = Some m /\ dict_get m pretty_names = Some lab).
  { intros tk Hin. dispatched_inv Hin r m n.
    exists m. cbn [task_method args worker_kwargs lookup String.eqb].
    cbn in Hm.
    destruct Hm as [<- | [<- | [<- | [<- | [<- | []]]]]];
      eexists; split; reflexivity. }
  split; [ | split; [ | split; [ | split ] ] ].
  - intros s. rewrite Hkeys. cbn. tauto.
  - rewrite Hkeys. repeat constructor; cbn; intuition discriminate.
  - vm_compute. repeat constructor; cbn; intuition discriminate.
  - exact Hlab.
  - apply traverse_Some. intros tk Hin.
    destruct (Hlab tk Hin) as (m & lab & Hm & Hl).
    exists lab. now rewrite Hm.
Qed.

Lemma pretty_names_cover_methods_witness :
  In (mkTask 0 (worker_kwargs "FFBS_ON" 100)) dispatched
  /\ exists m lab : string,
       task_method (mkTask 0 (worker_kwargs "FFBS_ON" 100)) = Some m
       /\ dict_get m pretty_names = Some lab.
Proof.
  split; [ exact first_dispatched | ].
  exact (proj1 (proj2 (proj2 (proj2 pretty_names_cover_methods)))
           _ first_dispatched).
Defined.

(** X15: the CPU plot.  The in-place update of the [FFBS_ON2] label finds
    both keys, keeps the keys of the dict and every other label, and makes
    the label name both quadratic algorithms.  The loop then draws one line
    for every method of the sweep but [two-filter_ON2], finds a label for
    each, draws the line with the merged label solid and the others dashed,
    and every point of every line averages the ten runs of its method and
    particle count, so no mean is taken over an empty selection. *)
Theorem cpu_plot_lines :
  exists (d : pydict) (lines : list line),
    pretty_names_cpu = Some d
    /\ map fst d = map fst pretty_names
    /\ (forall k : string,
          k <> "FFBS_ON2" -> dict_get k d = dict_get k pretty_names)
    /\ dict_get "FFBS_ON2" d
       = Some (ON2 ++ " FFBS and " ++ ON2 ++ " two-filter")
    /\ cpu_lines = Some lines
    /\ length lines = length cpu_methods
    /\ (forall m : string,
          In m methods <-> In m cpu_methods \/ m = "two-filter_ON2")
    /\ ~ In "two-filter_ON2" cpu_methods
    /\ (forall ln : line,
          In ln lines ->
          (ls ln = "-"
           <-> label ln = ON2 ++ " FFBS and " ++ ON2 ++ " two-filter")
          /\ (ls ln = "-" \/ ls ln = "--")
          /\ length (points ln) = length Ns
          /\ (forall p : list nat, In p (points ln) -> p = seq 0 10)).
Proof.
  exists (dict_set "FFBS_ON2" (ON2 ++ " FFBS and " ++ ON2 ++ " two-filter")
            pretty_names).
  eexists.
  split; [ reflexivity | ].
  split; [ apply dict_set_keys_present; discriminate | ].
  split; [ intros k Hk; apply dict_get_set_other; congruence | ].
  split; [ apply dict_get_set_same | ].
  split; [ vm_compute; reflexivity | ].
  split; [ reflexivity | ].
  split; [ intros m; cbn; intuition congruence | ].
  split; [ cbn; intuition discriminate | ].
  intros ln Hin. cbn in Hin.
  destruct Hin as [<- | [<- | [<- | [<- | []]]]]; cbn [ls label points];
    (split; [ split; intros H; solve [ reflexivity | discriminate H ] | ]);
    (split; [ solve [ left; reflexivity | right; reflexivity ] | ]);
    (split; [ reflexivity | ]);
    intros p Hp; cbn in Hp;
    destruct Hp as [<- | [<- | [<- | [<- | []]]]]; reflexivity.
Qed.

Close Scope string_scope.

Lemma cpu_plot_lines_witness :
  "FFBS_ON"%string <> "FFBS_ON2"%string
  /\ exists d : pydict,
       pretty_names_cpu = Some d
       /\ dict_get "FFBS_ON" d = dict_get "FFBS_ON" pretty_names.
Proof.
  assert (H : "FFBS_ON"%string <> "FFBS_ON2"%string) by discriminate.
  split; [ exact H | ].
  destruct cpu_plot_lines as (d & lines & Hd & _ & Hk & _).
  exists d. split; [ exact Hd | exact (Hk _ H) ].
Defined.
